(** * cannon-es: constraint and force-element layer

    A shallow embedding of [constraints/DistanceConstraint.ts], the
    [ContactMaterial] class and the [Spring] class, with the properties
    their specification states about them.

    Numbers.  A JavaScript number is modelled as [number]: either [NaN] or
    a finite value carried by a real.  Arithmetic is exact on finite values
    and [NaN] is absorbing; the rounding, the overflow and the signed zero
    of a double are not modelled.  The statements below are therefore kept
    to what does not depend on them: which value is stored where, what is
    left unchanged, and equalities that a double computes exactly.  The one
    place where the program relies on rounding, its id counter, has the
    rounding written out.

    Objects.  Bodies, contact equations and springs are mutable objects that
    several owners may reference; they live in finite maps from object
    identities ([nat]) to records, and the methods are store transformers. *)

From Stdlib Require Import Reals Lra Lia List.
From stdpp Require Import base option list gmap fin_maps.

(* ===================================================================== *)
(** ** Numbers *)
(* ===================================================================== *)

Inductive number : Type :=
  | NaN
  | Finite (r : R).

Module Num.

Definition zero : number := Finite 0%R.

Definition lift2 (op : R -> R -> R) (a b : number) : number :=
  match a, b with
  | Finite p, Finite q => Finite (op p q)
  | _, _ => NaN
  end.

(** [a + b], [a - b], [a * b] and unary [-a]. *)
Definition add : number -> number -> number := lift2 Rplus.
Definition sub : number -> number -> number := lift2 Rminus.
Definition mul : number -> number -> number := lift2 Rmult.
Definition neg (a : number) : number :=
  match a with
  | Finite p => Finite (- p)%R
  | NaN => NaN
  end.

(** [Math.sqrt]: [NaN] below zero. *)
Definition sqrt (a : number) : number :=
  match a with
  | Finite p => if Rlt_dec p 0 then NaN else Finite (R_sqrt.sqrt p)
  | NaN => NaN
  end.

(** Truthiness of a number: [0] and [NaN] are falsy. *)
Definition truthy (a : number) : bool :=
  match a with
  | Finite p => if Req_dec_T p 0 then false else true
  | NaN => false
  end.

Definition finite (a : number) : Prop :=
  match a with
  | Finite _ => True
  | NaN => False
  end.

(** [a < b] on numbers; every comparison with [NaN] is false. *)
Definition lt (a b : number) : Prop :=
  match a, b with
  | Finite p, Finite q => (p < q)%R
  | _, _ => False
  end.

End Num.

(** [x || d] for an optional numeric option [x]: the default replaces an
    absent ([undefined]) and any falsy value. *)
Definition or_default (x : option number) (d : number) : number :=
  match x with
  | Some v => if Num.truthy v then v else d
  | None => d
  end.

(** [typeof x === 'number' ? x : d]: every number, [0] and [NaN] included,
    is kept. *)
Definition number_or (x : option number) (d : number) : number :=
  match x with
  | Some v => v
  | None => d
  end.

(* ===================================================================== *)
(** ** Vec3 *)
(* ===================================================================== *)

Module Vec3.

Record t : Type := mk { x : number; y : number; z : number }.

(** [new Vec3()] *)
Definition ZERO : t := mk Num.zero Num.zero Num.zero.

Definition nan : t := mk NaN NaN NaN.

Definition finite (v : t) : Prop :=
  Num.finite (x v) /\ Num.finite (y v) /\ Num.finite (z v).

(** Modelled from the spec: [Vec3.vadd], [Vec3.vsub] (math/Vec3 is not
    among the sources); the componentwise sum and difference, written
    [this.vadd(v, target)] and [this.vsub(v, target)] in the callers. *)
Definition vadd (this v : t) : t :=
  mk (Num.add (x this) (x v)) (Num.add (y this) (y v)) (Num.add (z this) (z v)).

Definition vsub (this v : t) : t :=
  mk (Num.sub (x this) (x v)) (Num.sub (y this) (y v)) (Num.sub (z this) (z v)).

(** Modelled from the spec: [Vec3.mult] (math/Vec3 is not among the
    sources); the product of a vector by a scalar. *)
Definition mult (this : t) (scalar : number) : t :=
  mk (Num.mul scalar (x this)) (Num.mul scalar (y this)) (Num.mul scalar (z this)).

(** Modelled from the spec: [Vec3.dot] and [Vec3.cross] (math/Vec3 is
    not among the sources); the scalar and the vector product. *)
Definition dot (this v : t) : number :=
  Num.add (Num.add (Num.mul (x this) (x v)) (Num.mul (y this) (y v)))
          (Num.mul (z this) (z v)).

Definition cross (this v : t) : t :=
  mk (Num.sub (Num.mul (y this) (z v)) (Num.mul (z this) (y v)))
     (Num.sub (Num.mul (z this) (x v)) (Num.mul (x this) (z v)))
     (Num.sub (Num.mul (x this) (y v)) (Num.mul (y this) (x v))).

(** Modelled from the spec: [Vec3.norm] (math/Vec3 is not among the
    sources); the Euclidean length. *)
Definition norm (this : t) : number :=
  Num.sqrt (dot this this).

(** Modelled from the spec: [Vec3.distanceTo] (math/Vec3 is not among the
    sources); the Euclidean distance between two points. *)
Definition distanceTo (this p : t) : number :=
  norm (vsub p this).

(** Modelled from the spec: [Vec3.normalize] (math/Vec3 is not among the
    sources); the vector scaled to unit length.  The spec gives no value to
    the normalization of a vector that has no positive length; [nan] stands
    in for it, and no statement below depends on that choice. *)
Definition normalize (this : t) : t :=
  match norm this with
  | Finite n => if Req_dec_T n 0 then nan else mult this (Finite (/ n)%R)
  | NaN => nan
  end.

(** [this.copy(v)] *)
Definition copy (v : t) : t := v.

End Vec3.

(* ===================================================================== *)
(** ** The rigid bodies and the contact equations *)
(* ===================================================================== *)

Module Quaternion.
Record t : Type := mk { x : number; y : number; z : number; w : number }.
End Quaternion.

Module Body.

(** Modelled from the spec: the rigid-body contract (objects/Body is not
    among the sources): the fields a constraint or a spring reads, and
    the two accumulators it writes. *)
Record t : Type := mk {
  position : Vec3.t;
  quaternion : Quaternion.t;
  velocity : Vec3.t;
  angularVelocity : Vec3.t;
  force : Vec3.t;
  torque : Vec3.t
}.

Definition set_force (f : Vec3.t) (b : t) : t :=
  mk (position b) (quaternion b) (velocity b) (angularVelocity b) f (torque b).

Definition set_torque (tq : Vec3.t) (b : t) : t :=
  mk (position b) (quaternion b) (velocity b) (angularVelocity b) (force b) tq.

End Body.

Module ContactEquation.

(** Modelled from the spec: the contact equation (equations/ContactEquation
    is not among the sources): the two bodies it couples, its force
    bounds, its direction [ni] and its two anchor offsets [ri], [rj]. *)
Record t : Type := mk {
  bodyA : nat;
  bodyB : nat;
  minForce : number;
  maxForce : number;
  ni : Vec3.t;
  ri : Vec3.t;
  rj : Vec3.t
}.

(** Modelled from the spec: [new ContactEquation(bodyA, bodyB)]
    (equations/ContactEquation is not among the sources): a unilateral
    contact between the two bodies, its vectors freshly allocated. *)
Definition new (bodyA bodyB : nat) : t :=
  mk bodyA bodyB Num.zero (Finite 1e6%R) Vec3.ZERO Vec3.ZERO Vec3.ZERO.

Definition set_bounds (lo hi : number) (e : t) : t :=
  mk (bodyA e) (bodyB e) lo hi (ni e) (ri e) (rj e).

Definition set_ni (v : Vec3.t) (e : t) : t :=
  mk (bodyA e) (bodyB e) (minForce e) (maxForce e) v (ri e) (rj e).

Definition set_ri (v : Vec3.t) (e : t) : t :=
  mk (bodyA e) (bodyB e) (minForce e) (maxForce e) (ni e) v (rj e).

Definition set_rj (v : Vec3.t) (e : t) : t :=
  mk (bodyA e) (bodyB e) (minForce e) (maxForce e) (ni e) (ri e) v.

End ContactEquation.

(* ===================================================================== *)
(** ** DistanceConstraint *)
(* ===================================================================== *)

Module DistanceConstraint.

(** The objects a constraint reaches: the bodies, which it borrows, and
    the equations, which it owns; both by identity. *)
Record World : Type := mkWorld {
  bodies : gmap nat Body.t;
  equationStore : gmap nat ContactEquation.t
}.

(** The fields of [Constraint] (body pair, owned equations, flag) followed
    by those of [DistanceConstraint]. *)
Record t : Type := mk {
  bodyA : nat;
  bodyB : nat;
  equations : list nat;
  collideConnected : bool;
  distance : number;
  distanceEquation : nat
}.

(** Modelled from the spec: [super(bodyA, bodyB)] (constraints/Constraint
    is not among the sources): the body pair, an empty sequence of
    equations, and the connected bodies left colliding. *)
Definition Constraint_new (bodyA bodyB : nat) : nat * nat * list nat * bool :=
  (bodyA, bodyB, [], true).

(** [constructor(bodyA, bodyB, distance?, maxForce = 1e6)].  It fails
    only on a body that is not in the world, and only when it has to read
    the positions. *)
Definition new (bodyA bodyB : nat) (distance maxForce : option number)
    (w : World) : option (t * World) :=
  let maxForce := default (Finite 1e6%R) maxForce in
  let '(cA, cB, eqs, cc) := Constraint_new bodyA bodyB in
  distance ←
    match distance with
    | None =>
        a ← bodies w !! bodyA;
        b ← bodies w !! bodyB;
        Some (Vec3.distanceTo (Body.position a) (Body.position b))
    | Some d => Some d
    end;
  let eq := fresh (dom (equationStore w)) in
  let e := ContactEquation.new bodyA bodyB in
  let eqs := eqs ++ [eq] in
  (* Make it bidirectional *)
  let e := ContactEquation.set_bounds (Num.neg maxForce) maxForce e in
  Some (mk cA cB eqs cc distance eq,
        mkWorld (bodies w) (<[eq := e]> (equationStore w))).

(** [update()] *)
Definition update (this : t) (w : World) : option World :=
  a ← bodies w !! bodyA this;
  b ← bodies w !! bodyB this;
  eq ← equationStore w !! distanceEquation this;
  let halfDist := Num.mul (distance this) (Finite 0.5%R) in
  (* [normal] is [eq.ni]: the difference is written into it and
     normalized in place *)
  let normal := Vec3.vsub (Body.position b) (Body.position a) in
  let normal := Vec3.normalize normal in
  let eq := ContactEquation.set_ni normal eq in
  let eq := ContactEquation.set_ri (Vec3.mult normal halfDist) eq in
  let eq := ContactEquation.set_rj (Vec3.mult normal (Num.neg halfDist)) eq in
  Some (mkWorld (bodies w) (<[distanceEquation this := eq]> (equationStore w))).

End DistanceConstraint.

(* ===================================================================== *)
(** ** ContactMaterial *)
(* ===================================================================== *)

Module ContactMaterial.

(** [ContactMaterialOptions]: every field optional. *)
Record Options : Type := mkOptions {
  opt_friction : option number;
  opt_restitution : option number;
  opt_contactEquationStiffness : option number;
  opt_contactEquationRelaxation : option number;
  opt_frictionEquationStiffness : option number;
  opt_frictionEquationRelaxation : option number
}.

(** [{}] *)
Definition no_options : Options :=
  mkOptions None None None None None None.

(** A material is known by its identity. *)
Record t : Type := mk {
  id : number;
  materials : nat * nat;
  friction : number;
  restitution : number;
  contactEquationStiffness : number;
  contactEquationRelaxation : number;
  frictionEquationStiffness : number;
  frictionEquationRelaxation : number
}.

(** The static [ContactMaterial.idCounter] is the only state the
    constructor touches: a computation takes its value and returns the
    new one. *)
Definition State (A : Type) : Type := number -> A * number.

Definition ret {A : Type} (a : A) : State A := fun s => (a, s).

Definition bind {A B : Type} (m : State A) (k : A -> State B) : State B :=
  fun s => let '(a, s') := m s in k a s'.

(** [ContactMaterial.idCounter = 0] *)
Definition initial_idCounter : number := Finite 0%R.

(** The largest value the counter takes.  The counter is a double that
    starts at [0] and is only ever incremented: up to [2^53] every
    increment is exact; [2^53 + 1] is no double and rounds back to [2^53]
    (ties to even), so from there on the counter does not change. *)
Definition max_counter : R := IZR (2 ^ 53).

(** [ContactMaterial.idCounter++]: the old value is the result. *)
Definition post_increment : State number :=
  fun idCounter =>
    (idCounter,
     match idCounter with
     | Finite c =>
         if Req_dec_T c max_counter then idCounter
         else Num.add idCounter (Finite 1%R)
     | NaN => NaN
     end).

(** Modelled from the spec: [Utils.defaults] (utils/Utils is not among
    the sources); a field the options do not supply takes the value the
    table of defaults has for it. *)
Definition fill (o d : option number) : option number :=
  match o with
  | Some v => Some v
  | None => d
  end.

Definition Utils_defaults (options defaults : Options) : Options :=
  mkOptions
    (fill (opt_friction options) (opt_friction defaults))
    (fill (opt_restitution options) (opt_restitution defaults))
    (fill (opt_contactEquationStiffness options) (opt_contactEquationStiffness defaults))
    (fill (opt_contactEquationRelaxation options) (opt_contactEquationRelaxation defaults))
    (fill (opt_frictionEquationStiffness options) (opt_frictionEquationStiffness defaults))
    (fill (opt_frictionEquationRelaxation options) (opt_frictionEquationRelaxation defaults)).

(** [options.field!]: the field is read as it is; one that is still
    absent is no number. *)
Definition non_null (o : option number) : number :=
  match o with
  | Some v => v
  | None => NaN
  end.

(** [constructor(m1, m2, options)] *)
Definition new (m1 m2 : nat) (options : Options) : State t :=
  let options :=
    Utils_defaults options
      (mkOptions (Some (Finite 0.3%R)) (Some (Finite 0.3%R))
                 (Some (Finite 1e7%R)) (Some (Finite 3%R))
                 (Some (Finite 1e7%R)) (Some (Finite 3%R))) in
  bind post_increment (fun id =>
  ret (mk id (m1, m2)
          (non_null (opt_friction options))
          (non_null (opt_restitution options))
          (non_null (opt_contactEquationStiffness options))
          (non_null (opt_contactEquationRelaxation options))
          (non_null (opt_frictionEquationStiffness options))
          (non_null (opt_frictionEquationRelaxation options)))).

(** A sequence of constructions, one after the other. *)
Fixpoint new_all (args : list (nat * nat * Options)) : State (list t) :=
  match args with
  | [] => ret []
  | (m1, m2, options) :: rest =>
      bind (new m1 m2 options) (fun c =>
      bind (new_all rest) (fun cs =>
      ret (c :: cs)))
  end.

(** As many constructions as it takes to bring the counter to [2^53]. *)
Definition constructions_to_max : nat := Z.to_nat (2 ^ 53).

(** The materials a process builds, from the start of the process. *)
Definition in_one_process (args : list (nat * nat * Options)) : list t :=
  fst (new_all args initial_idCounter).

End ContactMaterial.

(* ===================================================================== *)
(** ** Spring *)
(* ===================================================================== *)

Module Spring.

(** [SpringOptions]: every field optional. *)
Record Options : Type := mkOptions {
  opt_restLength : option number;
  opt_stiffness : option number;
  opt_damping : option number;
  opt_localAnchorA : option Vec3.t;
  opt_localAnchorB : option Vec3.t;
  opt_worldAnchorA : option Vec3.t;
  opt_worldAnchorB : option Vec3.t
}.

(** [{}] *)
Definition no_options : Options :=
  mkOptions None None None None None None None.

Record t : Type := mk {
  restLength : number;
  stiffness : number;
  damping : number;
  bodyA : nat;
  bodyB : nat;
  localAnchorA : Vec3.t;
  localAnchorB : Vec3.t
}.

Definition set_localAnchorA (v : Vec3.t) (s : t) : t :=
  mk (restLength s) (stiffness s) (damping s) (bodyA s) (bodyB s) v (localAnchorB s).

Definition set_localAnchorB (v : Vec3.t) (s : t) : t :=
  mk (restLength s) (stiffness s) (damping s) (bodyA s) (bodyB s) (localAnchorA s) v.

(** The objects a spring reaches: the bodies, which it borrows, and the
    springs themselves; both by identity. *)
Record World : Type := mkWorld {
  bodies : gmap nat Body.t;
  springs : gmap nat t
}.

Section Frames.

(** [Body.pointToLocalFrame] and [Body.pointToWorldFrame] (objects/Body
    is not among the sources): the transforms between the frame of a body
    and the world.  They read the transform of the body, its position and
    its orientation, and the point; the result vector is returned. *)
Variable pointToLocalFrame : Vec3.t -> Quaternion.t -> Vec3.t -> Vec3.t.
Variable pointToWorldFrame : Vec3.t -> Quaternion.t -> Vec3.t -> Vec3.t.

Definition toLocal (b : Body.t) (worldPoint : Vec3.t) : Vec3.t :=
  pointToLocalFrame (Body.position b) (Body.quaternion b) worldPoint.

Definition toWorld (b : Body.t) (localPoint : Vec3.t) : Vec3.t :=
  pointToWorldFrame (Body.position b) (Body.quaternion b) localPoint.

(** [setWorldAnchorA(worldAnchorA)], [setWorldAnchorB(worldAnchorB)] *)
Definition setWorldAnchorA (worldAnchorA : Vec3.t) (bs : gmap nat Body.t)
    (this : t) : option t :=
  a ← bs !! bodyA this;
  Some (set_localAnchorA (toLocal a worldAnchorA) this).

Definition setWorldAnchorB (worldAnchorB : Vec3.t) (bs : gmap nat Body.t)
    (this : t) : option t :=
  b ← bs !! bodyB this;
  Some (set_localAnchorB (toLocal b worldAnchorB) this).

(** [getWorldAnchorA(result)], [getWorldAnchorB(result)] *)
Definition getWorldAnchorA (bs : gmap nat Body.t) (this : t) : option Vec3.t :=
  a ← bs !! bodyA this;
  Some (toWorld a (localAnchorA this)).

Definition getWorldAnchorB (bs : gmap nat Body.t) (this : t) : option Vec3.t :=
  b ← bs !! bodyB this;
  Some (toWorld b (localAnchorB this)).

(** The body of [constructor(bodyA, bodyB, options = {})]: the fields of
    the new spring.  It fails only on a world anchor given for a body
    that is not in the world. *)
Definition init (bodyA bodyB : nat) (options : option Options)
    (bs : gmap nat Body.t) : option t :=
  let options := default no_options options in
  let this :=
    mk (number_or (opt_restLength options) (Finite 1%R))
       (or_default (opt_stiffness options) (Finite 100%R))
       (or_default (opt_damping options) (Finite 1%R))
       bodyA bodyB Vec3.ZERO Vec3.ZERO in
  let this :=
    match opt_localAnchorA options with
    | Some v => set_localAnchorA (Vec3.copy v) this
    | None => this
    end in
  let this :=
    match opt_localAnchorB options with
    | Some v => set_localAnchorB (Vec3.copy v) this
    | None => this
    end in
  this ←
    match opt_worldAnchorA options with
    | Some v => setWorldAnchorA v bs this
    | None => Some this
    end;
  match opt_worldAnchorB options with
  | Some v => setWorldAnchorB v bs this
  | None => Some this
  end.

(** [new Spring(bodyA, bodyB, options)]: the new object and the world
    that holds it. *)
Definition new (bodyA bodyB : nat) (options : option Options)
    (w : World) : option (nat * World) :=
  this ← init bodyA bodyB options (bodies w);
  let r := fresh (dom (springs w)) in
  Some (r, mkWorld (bodies w) (<[r := this]> (springs w))).

(** [applyForce()] *)
Definition applyForce (this : nat) (w : World) : option World :=
  s ← springs w !! this;
  a ← bodies w !! bodyA s;
  b ← bodies w !! bodyB s;
  let k := stiffness s in
  let d := damping s in
  let l := restLength s in
  (* Get world anchors *)
  worldAnchorA ← getWorldAnchorA (bodies w) s;
  worldAnchorB ← getWorldAnchorB (bodies w) s;
  (* Get offset points *)
  let ri := Vec3.vsub worldAnchorA (Body.position a) in
  let rj := Vec3.vsub worldAnchorB (Body.position b) in
  (* Compute distance vector between world anchor points *)
  let r := Vec3.vsub worldAnchorB worldAnchorA in
  let rlen := Vec3.norm r in
  let r_unit := Vec3.copy r in
  let r_unit := Vec3.normalize r_unit in
  (* Compute relative velocity of the anchor points, u *)
  let u := Vec3.vsub (Body.velocity b) (Body.velocity a) in
  (* Add rotational velocity *)
  let tmp := Vec3.cross (Body.angularVelocity b) rj in
  let u := Vec3.vadd u tmp in
  let tmp := Vec3.cross (Body.angularVelocity a) ri in
  let u := Vec3.vsub u tmp in
  (* F = - k * ( x - L ) - D * ( u ) *)
  let f :=
    Vec3.mult r_unit
      (Num.sub (Num.mul (Num.neg k) (Num.sub rlen l))
               (Num.mul d (Vec3.dot u r_unit))) in
  (* Add forces to bodies *)
  let bs := bodies w in
  let bs := alter (fun o => Body.set_force (Vec3.vsub (Body.force o) f) o) (bodyA s) bs in
  let bs := alter (fun o => Body.set_force (Vec3.vadd (Body.force o) f) o) (bodyB s) bs in
  (* Angular force *)
  let ri_x_f := Vec3.cross ri f in
  let rj_x_f := Vec3.cross rj f in
  let bs := alter (fun o => Body.set_torque (Vec3.vsub (Body.torque o) ri_x_f) o) (bodyA s) bs in
  let bs := alter (fun o => Body.set_torque (Vec3.vadd (Body.torque o) rj_x_f) o) (bodyB s) bs in
  Some (mkWorld bs (springs w)).

(** The vectors [f], [ri_x_f] and [rj_x_f] that [applyForce()] computes
    for a spring and the states of its two bodies. *)
Definition applied (s : t) (a b : Body.t) : Vec3.t * Vec3.t * Vec3.t :=
  let worldAnchorA := toWorld a (localAnchorA s) in
  let worldAnchorB := toWorld b (localAnchorB s) in
  let ri := Vec3.vsub worldAnchorA (Body.position a) in
  let rj := Vec3.vsub worldAnchorB (Body.position b) in
  let r := Vec3.vsub worldAnchorB worldAnchorA in
  let rlen := Vec3.norm r in
  let r_unit := Vec3.normalize (Vec3.copy r) in
  let u :=
    Vec3.vsub
      (Vec3.vadd (Vec3.vsub (Body.velocity b) (Body.velocity a))
                 (Vec3.cross (Body.angularVelocity b) rj))
      (Vec3.cross (Body.angularVelocity a) ri) in
  let f :=
    Vec3.mult r_unit
      (Num.sub (Num.mul (Num.neg (stiffness s)) (Num.sub rlen (restLength s)))
               (Num.mul (damping s) (Vec3.dot u r_unit))) in
  (f, Vec3.cross ri f, Vec3.cross rj f).

End Frames.

End Spring.

(* ===================================================================== *)
(** ** The quantities the specification names *)
(* ===================================================================== *)

Module Spec.

(** [-v] *)
Definition negate (v : Vec3.t) : Vec3.t :=
  Vec3.mk (Num.neg (Vec3.x v)) (Num.neg (Vec3.y v)) (Num.neg (Vec3.z v)).

(** The length of a vector of finite components, as a real. *)
Definition length (a b c : R) : R :=
  R_sqrt.sqrt (a * a + b * b + c * c)%R.




(** What a spring adds to the accumulators of its two bodies: [-f] and
    [+f] to the forces, then [-ta] and [+tb] to the torques, each on the
    body as the step before left it. *)
Definition accumulate (f ta tb : Vec3.t) (A B : nat)
    (bs : gmap nat Body.t) : gmap nat Body.t :=
  alter (fun o => Body.set_torque (Vec3.vadd (Body.torque o) tb) o) B
    (alter (fun o => Body.set_torque (Vec3.vsub (Body.torque o) ta) o) A
       (alter (fun o => Body.set_force (Vec3.vadd (Body.force o) f) o) B
          (alter (fun o => Body.set_force (Vec3.vsub (Body.force o) f) o) A bs))).

(** Two states of a body that differ in the accumulators at most. *)
Definition same_kinematics (o o' : Body.t) : Prop :=
  Body.position o' = Body.position o /\
  Body.quaternion o' = Body.quaternion o /\
  Body.velocity o' = Body.velocity o /\
  Body.angularVelocity o' = Body.angularVelocity o.

(** Two stores with the same bodies, in states that differ in the
    accumulators at most. *)
Definition same_kinematics_all (bs bs' : gmap nat Body.t) : Prop :=
  forall r : nat,
    match bs !! r, bs' !! r with
    | Some o, Some o' => same_kinematics o o'
    | None, None => True
    | _, _ => False
    end.



(** The moment about the origin of what a body has accumulated: its torque
    and the moment of its force, applied at its center. *)
Definition moment_about_origin (b : Body.t) : Vec3.t :=
  Vec3.vadd (Body.torque b) (Vec3.cross (Body.position b) (Body.force b)).


(** The number [i], for a natural [i]. *)
Definition nth_id (i : nat) : number := Finite (INR i).

(** Strictly increasing sequences of numbers. *)
Fixpoint increasing (l : list number) : Prop :=
  match l with
  | [] => True
  | a :: rest => Forall (Num.lt a) rest /\ increasing rest
  end.

End Spec.

(* ===================================================================== *)
(** ** A small scene *)
(* ===================================================================== *)

Module Scene.

Definition vec (a b c : R) : Vec3.t := Vec3.mk (Finite a) (Finite b) (Finite c).

Definition identity : Quaternion.t :=
  Quaternion.mk (Finite 0%R) (Finite 0%R) (Finite 0%R) (Finite 1%R).

(** A body at rest at [p], its accumulators empty. *)
Definition body_at (p : Vec3.t) : Body.t :=
  Body.mk p identity Vec3.ZERO Vec3.ZERO Vec3.ZERO Vec3.ZERO.

(** Body 0 at the origin, body 1 at [(3, 4, 0)], body 2 on top of body 0. *)
Definition bodies : gmap nat Body.t :=
  <[0%nat := body_at (vec 0 0 0)]>
    (<[1%nat := body_at (vec 3 4 0)]>
       (<[2%nat := body_at (vec 0 0 0)]> ∅)).

(** A distance constraint of target distance 2 between bodies 0 and 1, and
    one between the coinciding bodies 0 and 2; their equations are the
    objects 0 and 1. *)
Definition world : DistanceConstraint.World :=
  DistanceConstraint.mkWorld bodies
    (<[0%nat := ContactEquation.new 0 1]>
       (<[1%nat := ContactEquation.new 0 2]> ∅)).

Definition constraint : DistanceConstraint.t :=
  DistanceConstraint.mk 0 1 [0%nat] true (Finite 2%R) 0.

(** Frames of bodies that are not rotated. *)
Definition pointToLocalFrame (position : Vec3.t) (_ : Quaternion.t)
    (worldPoint : Vec3.t) : Vec3.t :=
  Vec3.vsub worldPoint position.

Definition pointToWorldFrame (position : Vec3.t) (_ : Quaternion.t)
    (localPoint : Vec3.t) : Vec3.t :=
  Vec3.vadd localPoint position.

(** A spring with the default parameters between the centers of bodies 0
    and 1; it is the object 0. *)
Definition spring : Spring.t :=
  Spring.mk (Finite 1%R) (Finite 100%R) (Finite 1%R) 0 1 Vec3.ZERO Vec3.ZERO.

Definition spring_world : Spring.World :=
  Spring.mkWorld bodies (<[0%nat := spring]> ∅).






(** Options that ask for a rest length, a stiffness and a damping of zero. *)
Definition zero_options : Spring.Options :=
  Spring.mkOptions (Some (Finite 0%R)) (Some (Finite 0%R)) (Some (Finite 0%R))
    None None None None.

(** Options that give the anchor on body A both in local and in world
    coordinates. *)
Definition both_anchors : Spring.Options :=
  Spring.mkOptions None None None (Some (vec 9 9 9)) None (Some (vec 1 1 1)) None.

(** Options with negative values only. *)
Definition negative_spring_options : Spring.Options :=
  Spring.mkOptions (Some (Finite (-1)%R)) (Some (Finite (-5)%R)) (Some (Finite (-2)%R))
    None None None None.

Definition negative_material_options : ContactMaterial.Options :=
  ContactMaterial.mkOptions (Some (Finite (-1)%R)) (Some (Finite (-1)%R))
    None None None None.

End Scene.

(* ===================================================================== *)
(** ** Vectors of finite components *)
(* ===================================================================== *)

Section VectorFacts.

Local Open Scope R_scope.

Lemma sum_squares_nonneg (a b c : R) : 0 <= a * a + b * b + c * c.
Proof. nra. Qed.





Lemma norm_finite (a b c : R) :
  Vec3.norm (Vec3.mk (Finite a) (Finite b) (Finite c)) = Finite (Spec.length a b c).
Proof.
  unfold Vec3.norm, Vec3.dot, Num.sqrt; simpl.
  destruct (Rlt_dec (a * a + b * b + c * c) 0) as [Hlt|_]; [|reflexivity].
  pose proof (sum_squares_nonneg a b c). lra.
Qed.

Lemma mult_finite (s a b c : R) :
  Vec3.mult (Vec3.mk (Finite a) (Finite b) (Finite c)) (Finite s)
  = Vec3.mk (Finite (s * a)) (Finite (s * b)) (Finite (s * c)).
Proof. reflexivity. Qed.

Lemma vsub_finite (a b c a' b' c' : R) :
  Vec3.vsub (Vec3.mk (Finite a) (Finite b) (Finite c))
            (Vec3.mk (Finite a') (Finite b') (Finite c'))
  = Vec3.mk (Finite (a - a')) (Finite (b - b')) (Finite (c - c')).
Proof. reflexivity. Qed.



Lemma negate_mult (v : Vec3.t) (s : number) :
  Vec3.mult v (Num.neg s) = Spec.negate (Vec3.mult v s).
Proof.
  destruct v as [[|a] [|b] [|c]], s as [|s]; unfold Vec3.mult, Spec.negate; simpl;
    try reflexivity; f_equal; f_equal; ring.
Qed.

Example distanceTo_3_4 :
  Vec3.distanceTo (Scene.vec 0 0 0) (Scene.vec 3 4 0) = Finite 5.
Proof.
  unfold Vec3.distanceTo, Scene.vec. rewrite vsub_finite, norm_finite.
  f_equal. unfold Spec.length.
  replace ((3 - 0) * (3 - 0) + (4 - 0) * (4 - 0) + (0 - 0) * (0 - 0)) with (5 * 5)
    by ring.
  apply sqrt_square. lra.
Qed.

End VectorFacts.

(* ===================================================================== *)
(** ** DistanceConstraint: the update step *)
(* ===================================================================== *)

Section DistanceConstraintUpdate.

Import DistanceConstraint.
Local Open Scope R_scope.

(** The equation [update()] leaves behind, as the source computes it. *)
Lemma update_unfold (this : DistanceConstraint.t) (w : World)
    (a b : Body.t) (eq : ContactEquation.t) :
  bodies w !! bodyA this = Some a ->
  bodies w !! bodyB this = Some b ->
  equationStore w !! distanceEquation this = Some eq ->
  let n := Vec3.normalize (Vec3.vsub (Body.position b) (Body.position a)) in
  let h := Num.mul (distance this) (Finite 0.5) in
  update this w =
    Some (mkWorld (bodies w)
            (<[distanceEquation this :=
                 ContactEquation.mk (ContactEquation.bodyA eq) (ContactEquation.bodyB eq)
                   (ContactEquation.minForce eq) (ContactEquation.maxForce eq)
                   n (Vec3.mult n h) (Vec3.mult n (Num.neg h))]>
               (equationStore w))).
Proof.
  intros Ha Hb He. unfold update. rewrite Ha, Hb, He. reflexivity.
Qed.

End DistanceConstraintUpdate.

(* ===================================================================== *)
(** ** DistanceConstraint: construction *)
(* ===================================================================== *)

Section DistanceConstraintNew.

Import DistanceConstraint.
Local Open Scope R_scope.

(** The constraint and the world [new] returns once the distance to keep
    is known. *)
Lemma new_unfold (A B : nat) (distance maxForce : option number) (w : World)
    (d : number) :
  match distance with
  | None =>
      a ← bodies w !! A;
      b ← bodies w !! B;
      Some (Vec3.distanceTo (Body.position a) (Body.position b))
  | Some d' => Some d'
  end = Some d ->
  let eq := fresh (dom (equationStore w)) in
  let hi := default (Finite 1e6) maxForce in
  new A B distance maxForce w =
    Some (mk A B [eq] true d eq,
          mkWorld (bodies w)
            (<[eq := ContactEquation.mk A B (Num.neg hi) hi
                       Vec3.ZERO Vec3.ZERO Vec3.ZERO]> (equationStore w))).
Proof.
  intros Hd. unfold new. cbn -[fresh]. rewrite Hd. reflexivity.
Qed.

Lemma fresh_equation (w : World) :
  equationStore w !! fresh (dom (equationStore w)) = None.
Proof. apply not_elem_of_dom, is_fresh. Qed.

(** C6.  Built without a distance between two bodies of the world, the
    constraint keeps what [bodyA.position.distanceTo(bodyB.position)]
    gives, the Euclidean distance between the two centers, on the positions
    the bodies have in the world at that time; the bodies themselves are
    left as they were. *)
Theorem new_default_distance (A B : nat) (maxForce : option number) (w : World)
    (a b : Body.t) :
  bodies w !! A = Some a ->
  bodies w !! B = Some b ->
  exists (c : DistanceConstraint.t) (w' : World),
    new A B None maxForce w = Some (c, w') /\
    distance c = Vec3.distanceTo (Body.position a) (Body.position b) /\
    bodies w' = bodies w.
Proof.
  intros Ha Hb.
  eexists _, _. split.
  - apply new_unfold. rewrite Ha, Hb. reflexivity.
  - split; reflexivity.
Qed.

Lemma new_default_distance_witness :
  exists (c : DistanceConstraint.t) (w' : World),
    new 0 1 None None Scene.world = Some (c, w') /\
    distance c = Vec3.distanceTo (Scene.vec 0 0 0) (Scene.vec 3 4 0) /\
    bodies w' = bodies Scene.world.
Proof.
  apply (new_default_distance 0 1 None Scene.world
           (Scene.body_at (Scene.vec 0 0 0)) (Scene.body_at (Scene.vec 3 4 0)));
    reflexivity.
Defined.

(** C7.  Whenever the constructor has a distance to keep (one is given, or
    both bodies are in the world), it returns a constraint with exactly one
    equation, a new object of the world, which is its [distanceEquation];
    the equation couples the bodies of the constraint and its bounds are
    [minForce = -maxForce], where [maxForce] is the argument, [1e6] when
    there is none.  The bodies and the other equations are left as they
    were. *)
Theorem new_single_bidirectional_equation (A B : nat)
    (distance maxForce : option number) (w : World) :
  (distance = None -> is_Some (bodies w !! A) /\ is_Some (bodies w !! B)) ->
  exists (c : DistanceConstraint.t) (w' : World) (e : ContactEquation.t),
    new A B distance maxForce w = Some (c, w') /\
    bodyA c = A /\ bodyB c = B /\
    equations c = [distanceEquation c] /\
    equationStore w !! distanceEquation c = None /\
    equationStore w' !! distanceEquation c = Some e /\
    (forall r, r <> distanceEquation c -> equationStore w' !! r = equationStore w !! r) /\
    bodies w' = bodies w /\
    ContactEquation.bodyA e = bodyA c /\
    ContactEquation.bodyB e = bodyB c /\
    ContactEquation.minForce e = Num.neg (ContactEquation.maxForce e) /\
    ContactEquation.maxForce e = default (Finite 1e6) maxForce /\
    (maxForce = None ->
       ContactEquation.maxForce e = Finite 1e6 /\
       ContactEquation.minForce e = Finite (- 1e6)).
Proof.
  intros Hd.
  assert (exists d,
            match distance with
            | None =>
                a ← bodies w !! A;
                b ← bodies w !! B;
                Some (Vec3.distanceTo (Body.position a) (Body.position b))
            | Some d' => Some d'
            end = Some d) as (d & Ed).
  { destruct distance as [d|]; [now exists d|].
    destruct (Hd eq_refl) as ((a & Ha) & (b & Hb)).
    rewrite Ha, Hb. eexists. reflexivity. }
  pose proof (new_unfold A B distance maxForce w d Ed) as Hn. cbv zeta in Hn.
  eexists _, _, _. split; [exact Hn|].
  cbn [bodyA bodyB equations distanceEquation equationStore bodies].
  rewrite lookup_insert_eq.
  split_and!; try reflexivity.
  - apply fresh_equation.
  - intros r Hr. now rewrite lookup_insert_ne.
  - intros ->. split; [reflexivity|]. simpl. f_equal. lra.
Qed.

Lemma new_single_bidirectional_equation_witness :
  exists (c : DistanceConstraint.t) (w' : World) (e : ContactEquation.t),
    new 0 1 None None Scene.world = Some (c, w') /\
    bodyA c = 0%nat /\ bodyB c = 1%nat /\
    equations c = [distanceEquation c] /\
    equationStore Scene.world !! distanceEquation c = None /\
    equationStore w' !! distanceEquation c = Some e /\
    (forall r, r <> distanceEquation c ->
       equationStore w' !! r = equationStore Scene.world !! r) /\
    bodies w' = bodies Scene.world /\
    ContactEquation.bodyA e = bodyA c /\
    ContactEquation.bodyB e = bodyB c /\
    ContactEquation.minForce e = Num.neg (ContactEquation.maxForce e) /\
    ContactEquation.maxForce e = default (Finite 1e6) None /\
    (@None number = None ->
       ContactEquation.maxForce e = Finite 1e6 /\
       ContactEquation.minForce e = Finite (- 1e6)).
Proof.
  apply (new_single_bidirectional_equation 0 1 None None Scene.world).
  intros _. split; eexists; reflexivity.
Defined.

End DistanceConstraintNew.

(* ===================================================================== *)
(** ** ContactMaterial *)
(* ===================================================================== *)

Section ContactMaterialFacts.

Import ContactMaterial.
Local Open Scope R_scope.

(** C9.  Each field of a new contact material is the one the options
    supply, or its documented default when they supply none; the pair of
    materials is kept in the order given. *)
Theorem new_fills_defaults (m1 m2 : nat) (options : Options) (idCounter : number) :
  let c := fst (new m1 m2 options idCounter) in
  materials c = (m1, m2) /\
  friction c = default (Finite 0.3) (opt_friction options) /\
  restitution c = default (Finite 0.3) (opt_restitution options) /\
  contactEquationStiffness c
    = default (Finite 1e7) (opt_contactEquationStiffness options) /\
  contactEquationRelaxation c
    = default (Finite 3) (opt_contactEquationRelaxation options) /\
  frictionEquationStiffness c
    = default (Finite 1e7) (opt_frictionEquationStiffness options) /\
  frictionEquationRelaxation c
    = default (Finite 3) (opt_frictionEquationRelaxation options).
Proof.
  destruct options as [[f|] [r|] [cs|] [cr|] [fs|] [fr|]]; cbn; repeat split.
Qed.

Lemma new_id (m1 m2 : nat) (options : Options) (idCounter : number) :
  id (fst (new m1 m2 options idCounter)) = idCounter /\
  snd (new m1 m2 options idCounter) = snd (post_increment idCounter).
Proof. split; reflexivity. Qed.

Lemma new_all_cons (m1 m2 : nat) (o : Options) (rest : list (nat * nat * Options))
    (s : number) :
  new_all ((m1, m2, o) :: rest) s
  = (fst (new m1 m2 o s) :: fst (new_all rest (snd (new m1 m2 o s))),
     snd (new_all rest (snd (new m1 m2 o s)))).
Proof.
  cbn [new_all]. unfold bind, ret.
  destruct (new m1 m2 o s) as [c s']. cbn [fst snd].
  now destruct (new_all rest s') as [cs s''].
Qed.

Lemma new_all_app (l1 l2 : list (nat * nat * Options)) (s : number) :
  fst (new_all (l1 ++ l2) s)
  = fst (new_all l1 s) ++ fst (new_all l2 (snd (new_all l1 s))) /\
  snd (new_all (l1 ++ l2) s) = snd (new_all l2 (snd (new_all l1 s))).
Proof.
  revert s. induction l1 as [|[[m1 m2] o] l1 IH]; intros s.
  - split; reflexivity.
  - cbn [app]. rewrite !new_all_cons. cbn [fst snd].
    destruct (IH (snd (new m1 m2 o s))) as [-> ->]. split; reflexivity.
Qed.

(** Below [2^53] the increment is exact; at [2^53] the counter stays. *)
Lemma post_increment_below (k : nat) :
  INR k < max_counter ->
  snd (post_increment (Spec.nth_id k)) = Spec.nth_id (S k).
Proof.
  intros Hk. unfold post_increment, Spec.nth_id. cbn [snd].
  destruct (Req_dec_T (INR k) max_counter) as [E|_]; [lra|].
  unfold Num.add, Num.lift2. now rewrite S_INR.
Qed.

Lemma post_increment_at_max :
  snd (post_increment (Finite max_counter)) = Finite max_counter.
Proof.
  unfold post_increment. cbn [snd].
  destruct (Req_dec_T max_counter max_counter) as [_|N]; [reflexivity|now contradiction N].
Qed.

Lemma max_counter_positive : 1 <= max_counter.
Proof.
  unfold max_counter. change (2 ^ 53)%Z with 9007199254740992%Z. lra.
Qed.

Lemma INR_constructions_to_max : INR constructions_to_max = max_counter.
Proof.
  unfold constructions_to_max, max_counter.
  rewrite INR_IZR_INZ, Z2Nat.id; [reflexivity|].
  change (2 ^ 53)%Z with 9007199254740992%Z. lia.
Qed.

Lemma new_all_ids (args : list (nat * nat * Options)) (k : nat) :
  INR k + INR (length args) <= max_counter + 1 ->
  map id (fst (new_all args (Spec.nth_id k))) = map Spec.nth_id (seq k (length args)).
Proof.
  revert k. induction args as [|[[m1 m2] o] rest IH]; intros k Hk; [reflexivity|].
  pose proof (new_id m1 m2 o (Spec.nth_id k)) as [Eid Es].
  rewrite new_all_cons. cbn [fst snd map length seq]. rewrite Eid. f_equal.
  destruct rest as [|x rest]; [reflexivity|].
  cbn [length] in Hk. rewrite !S_INR in Hk.
  pose proof (pos_INR (length rest)) as Hpos.
  rewrite Es, post_increment_below by lra.
  apply IH. cbn [length]. rewrite !S_INR. lra.
Qed.

Lemma new_all_counter (args : list (nat * nat * Options)) (k : nat) :
  INR k + INR (length args) <= max_counter ->
  snd (new_all args (Spec.nth_id k)) = Spec.nth_id (k + length args).
Proof.
  revert k. induction args as [|[[m1 m2] o] rest IH]; intros k Hk.
  - cbn. now rewrite Nat.add_0_r.
  - pose proof (new_id m1 m2 o (Spec.nth_id k)) as [_ Es].
    cbn [length] in Hk. rewrite S_INR in Hk.
    pose proof (pos_INR (length rest)) as Hpos.
    rewrite new_all_cons. cbn [snd]. rewrite Es, post_increment_below by lra.
    rewrite IH by (rewrite S_INR; lra).
    f_equal. cbn [length]. lia.
Qed.

Lemma increasing_from (k n : nat) :
  Spec.increasing (map Spec.nth_id (seq k n)).
Proof.
  revert k. induction n as [|n IH]; intros k; simpl; [exact I|].
  split; [|apply IH].
  apply Forall_forall. intros y Hy. apply list_elem_of_In in Hy.
  apply in_map_iff in Hy as (i & <- & Hi). apply in_seq in Hi.
  unfold Spec.nth_id, Num.lt. apply lt_INR. lia.
Qed.

Lemma increasing_NoDup (l : list number) : Spec.increasing l -> NoDup l.
Proof.
  induction l as [|a l IH]; simpl; intros H; [constructor|].
  destruct H as [Hall Hrest]. constructor; [|now apply IH].
  intros Hin. rewrite Forall_forall in Hall. specialize (Hall a).
  assert (Num.lt a a) as Hlt.
  { apply Hall. first [exact Hin | apply list_elem_of_In; exact Hin]. }
  destruct a; simpl in Hlt; [exact Hlt | lra].
Qed.

(** C8, as the code has it.  The first [2^53 + 1] materials built in one
    process have, in the order they are built, the ids 0, 1, 2, ...:
    strictly increasing, so no two the same. *)
Theorem ids_strictly_increasing (args : list (nat * nat * Options)) :
  INR (length args) <= max_counter + 1 ->
  map id (in_one_process args) = map Spec.nth_id (seq 0 (length args)) /\
  Spec.increasing (map id (in_one_process args)) /\
  NoDup (map id (in_one_process args)).
Proof.
  intros Hlen. unfold in_one_process.
  change initial_idCounter with (Spec.nth_id 0).
  rewrite new_all_ids by (cbn [INR]; lra).
  split; [reflexivity|].
  split; [apply increasing_from|].
  apply increasing_NoDup, increasing_from.
Qed.

Lemma ids_strictly_increasing_witness :
  map id (in_one_process [(0%nat, 1%nat, no_options); (1%nat, 0%nat, no_options)])
    = map Spec.nth_id (seq 0 2) /\
  Spec.increasing
    (map id (in_one_process [(0%nat, 1%nat, no_options); (1%nat, 0%nat, no_options)])) /\
  NoDup
    (map id (in_one_process [(0%nat, 1%nat, no_options); (1%nat, 0%nat, no_options)])).
Proof.
  apply (ids_strictly_increasing
           [(0%nat, 1%nat, no_options); (1%nat, 0%nat, no_options)]).
  pose proof max_counter_positive. cbn [length INR]. lra.
Defined.

Lemma counter_reaches_max (x : nat * nat * Options) :
  snd (new_all (repeat x constructions_to_max) initial_idCounter) = Finite max_counter.
Proof.
  change initial_idCounter with (Spec.nth_id 0).
  rewrite new_all_counter.
  - rewrite repeat_length, Nat.add_0_l. unfold Spec.nth_id.
    now rewrite INR_constructions_to_max.
  - rewrite repeat_length, INR_constructions_to_max.
    change (INR 0) with 0. lra.
Qed.

Lemma two_at_max (m1 m2 m3 m4 : nat) (o1 o2 : Options) :
  map id (fst (new_all [(m1, m2, o1); (m3, m4, o2)] (Finite max_counter)))
  = [Finite max_counter; Finite max_counter].
Proof.
  rewrite !new_all_cons. cbn [fst snd map new_all ret].
  destruct (new_id m1 m2 o1 (Finite max_counter)) as [Eid Es].
  rewrite Es, post_increment_at_max, Eid.
  destruct (new_id m3 m4 o2 (Finite max_counter)) as [Eid' _].
  now rewrite Eid'.
Qed.

Lemma ids_past_max (front : list (nat * nat * Options)) (m1 m2 m3 m4 : nat)
    (o1 o2 : Options) :
  snd (new_all front initial_idCounter) = Finite max_counter ->
  map id (in_one_process (front ++ [(m1, m2, o1); (m3, m4, o2)]))
  = map id (fst (new_all front initial_idCounter))
    ++ [Finite max_counter; Finite max_counter].
Proof.
  intros Hmax. unfold in_one_process.
  destruct (new_all_app front [(m1, m2, o1); (m3, m4, o2)] initial_idCounter)
    as [-> _].
  now rewrite map_app, Hmax, two_at_max.
Qed.

Lemma not_NoDup_repeated_end (front : list number) (x : number) :
  ~ NoDup (front ++ [x; x]).
Proof.
  intros H. apply NoDup_app in H as (_ & _ & H).
  apply NoDup_cons in H as [Hin _]. apply Hin. now left.
Qed.

(** C8, as the specification has it, fails: the two materials built after
    [2^53] others both get the id [2^53], the value at which the counter
    stops. *)
Lemma ids_repeat_past_max :
  let args :=
    repeat (0%nat, 1%nat, no_options) constructions_to_max
    ++ [(0%nat, 1%nat, no_options); (0%nat, 1%nat, no_options)] in
  (exists front : list number,
     map id (in_one_process args)
     = front ++ [Finite max_counter; Finite max_counter]) /\
  ~ NoDup (map id (in_one_process args)) /\
  ~ Spec.increasing (map id (in_one_process args)).
Proof.
  intros args.
  pose proof (ids_past_max (repeat (0%nat, 1%nat, no_options) constructions_to_max)
                0 1 0 1 no_options no_options
                (counter_reaches_max (0%nat, 1%nat, no_options))) as E.
  fold args in E.
  generalize dependent (in_one_process args). intros ms E.
  assert (~ NoDup (map id ms)) as Hdup
    by (rewrite E; apply not_NoDup_repeated_end).
  split; [eexists; exact E|]. split; [exact Hdup|].
  intros H. apply Hdup. now apply increasing_NoDup.
Qed.

End ContactMaterialFacts.

(* ===================================================================== *)
(** ** Spring: the force *)
(* ===================================================================== *)

Section SpringForce.

Import Spring.
Local Open Scope R_scope.

Variable pointToWorldFrame : Vec3.t -> Quaternion.t -> Vec3.t -> Vec3.t.

(** [applyForce()] succeeds on a spring whose bodies are in the world, and
    accumulates the vectors of [applied]. *)
Lemma applyForce_unfold (this : nat) (w : World) (s : Spring.t) (a b : Body.t) :
  springs w !! this = Some s ->
  bodies w !! bodyA s = Some a ->
  bodies w !! bodyB s = Some b ->
  applyForce pointToWorldFrame this w =
    Some (mkWorld
            (Spec.accumulate (applied pointToWorldFrame s a b).1.1
                             (applied pointToWorldFrame s a b).1.2
                             (applied pointToWorldFrame s a b).2
                             (bodyA s) (bodyB s) (bodies w))
            (springs w)).
Proof.
  intros Hs Ha Hb. unfold applyForce, getWorldAnchorA, getWorldAnchorB.
  rewrite Hs. cbn [mbind option_bind]. rewrite Ha. cbn [mbind option_bind].
  rewrite Hb. reflexivity.
Qed.

Lemma applyForce_inv (this : nat) (w w' : World) :
  applyForce pointToWorldFrame this w = Some w' ->
  exists (s : Spring.t) (a b : Body.t),
    springs w !! this = Some s /\
    bodies w !! bodyA s = Some a /\
    bodies w !! bodyB s = Some b.
Proof.
  unfold applyForce. intros H.
  destruct (springs w !! this) as [s|] eqn:Hs; [|discriminate].
  cbn [mbind option_bind] in H.
  destruct (bodies w !! bodyA s) as [a|] eqn:Ha; [|discriminate].
  cbn [mbind option_bind] in H.
  destruct (bodies w !! bodyB s) as [b|] eqn:Hb; [|discriminate].
  now exists s, a, b.
Qed.





End SpringForce.

(* ===================================================================== *)
(** ** Spring: what [applyForce()] leaves alone *)
(* ===================================================================== *)

Section SpringFrame.

Import Spring.
Local Open Scope R_scope.

Variable pointToWorldFrame : Vec3.t -> Quaternion.t -> Vec3.t -> Vec3.t.

Lemma same_kinematics_refl (o : Body.t) : Spec.same_kinematics o o.
Proof. repeat split. Qed.

Lemma same_kinematics_set_force (o : Body.t) (v : Vec3.t) :
  Spec.same_kinematics o (Body.set_force v o).
Proof. repeat split. Qed.

Lemma same_kinematics_set_torque (o : Body.t) (v : Vec3.t) :
  Spec.same_kinematics o (Body.set_torque v o).
Proof. repeat split. Qed.

Lemma applied_same_kinematics (s : Spring.t) (a b a2 b2 : Body.t) :
  Spec.same_kinematics a a2 ->
  Spec.same_kinematics b b2 ->
  applied pointToWorldFrame s a2 b2 = applied pointToWorldFrame s a b.
Proof.
  intros (Hp & Hq & Hv & Ho) (Hp' & Hq' & Hv' & Ho').
  unfold applied, toWorld.
  now rewrite Hp, Hq, Hv, Ho, Hp', Hq', Hv', Ho'.
Qed.

Lemma accumulate_None (f ta tb : Vec3.t) (A B r : nat) (bs : gmap nat Body.t) :
  bs !! r = None -> Spec.accumulate f ta tb A B bs !! r = None.
Proof.
  intros H. unfold Spec.accumulate.
  now rewrite !lookup_alter_None.
Qed.

Lemma same_kinematics_trans (o1 o2 o3 : Body.t) :
  Spec.same_kinematics o1 o2 -> Spec.same_kinematics o2 o3 ->
  Spec.same_kinematics o1 o3.
Proof.
  intros (Hp & Hq & Hv & Ho) (Hp' & Hq' & Hv' & Ho').
  repeat split; congruence.
Qed.

Lemma alter_Some (g : Body.t -> Body.t) (i r : nat) (bs : gmap nat Body.t)
    (o : Body.t) :
  (forall x : Body.t, Spec.same_kinematics x (g x)) ->
  bs !! r = Some o ->
  exists o' : Body.t,
    alter g i bs !! r = Some o' /\
    Spec.same_kinematics o o' /\
    (r <> i -> o' = o).
Proof.
  intros Hg H. destruct (decide (i = r)) as [->|Hne].
  - rewrite lookup_alter_eq, H. exists (g o).
    split; [reflexivity|]. split; [apply Hg | congruence].
  - rewrite lookup_alter_ne, H by exact Hne. exists o.
    split; [reflexivity|]. split; [apply same_kinematics_refl | reflexivity].
Qed.

Lemma accumulate_Some (f ta tb : Vec3.t) (A B r : nat) (bs : gmap nat Body.t)
    (o : Body.t) :
  bs !! r = Some o ->
  exists o' : Body.t,
    Spec.accumulate f ta tb A B bs !! r = Some o' /\
    Spec.same_kinematics o o' /\
    (r <> A -> r <> B -> o' = o).
Proof.
  intros H. unfold Spec.accumulate.
  eapply alter_Some in H as (o1 & H1 & K1 & E1);
    [| intros x; apply (same_kinematics_set_force x)].
  eapply alter_Some in H1 as (o2 & H2 & K2 & E2);
    [| intros x; apply (same_kinematics_set_force x)].
  eapply alter_Some in H2 as (o3 & H3 & K3 & E3);
    [| intros x; apply (same_kinematics_set_torque x)].
  eapply alter_Some in H3 as (o4 & H4 & K4 & E4);
    [| intros x; apply (same_kinematics_set_torque x)].
  exists o4. split; [exact H4|]. split.
  - eauto using same_kinematics_trans.
  - intros HA HB. rewrite E4, E3, E2, E1 by assumption. reflexivity.
Qed.

(** C3.  A call of [applyForce()] that returns leaves every spring as it
    was, creates and removes no body, leaves the position, orientation,
    velocity and angular velocity of every body as they were, and leaves
    the bodies other than bodyA and bodyB untouched.  What it does to the
    accumulators of bodyA and bodyB is an addition: there are vectors [f],
    [ta], [tb] such that, whatever the accumulators held, it leaves them
    with [-f], [+f], [-ta], [+tb] added. *)
Theorem applyForce_frame (this : nat) (w w' : World) :
  applyForce pointToWorldFrame this w = Some w' ->
  exists (s : Spring.t) (a b : Body.t) (f ta tb : Vec3.t),
    springs w !! this = Some s /\
    bodies w !! bodyA s = Some a /\
    bodies w !! bodyB s = Some b /\
    springs w' = springs w /\
    (forall r : nat, bodies w !! r = None -> bodies w' !! r = None) /\
    (forall (r : nat) (o : Body.t),
       bodies w !! r = Some o ->
       exists o' : Body.t,
         bodies w' !! r = Some o' /\
         Spec.same_kinematics o o' /\
         (r <> bodyA s -> r <> bodyB s -> o' = o)) /\
    (forall w2 : World,
       springs w2 = springs w ->
       Spec.same_kinematics_all (bodies w) (bodies w2) ->
       applyForce pointToWorldFrame this w2 =
         Some (mkWorld (Spec.accumulate f ta tb (bodyA s) (bodyB s) (bodies w2))
                       (springs w2))).
Proof.
  intros Happ.
  destruct (applyForce_inv _ _ _ _ Happ) as (s & a & b & Hs & Ha & Hb).
  pose proof (applyForce_unfold pointToWorldFrame this w s a b Hs Ha Hb) as Hu.
  rewrite Happ in Hu. injection Hu as ->.
  exists s, a, b.
  exists (applied pointToWorldFrame s a b).1.1,
         (applied pointToWorldFrame s a b).1.2,
         (applied pointToWorldFrame s a b).2.
  cbn [springs bodies].
  split_and!; try assumption; try reflexivity.
  - intros r. apply accumulate_None.
  - intros r o. apply accumulate_Some.
  - intros w2 Hsp Hkin.
    pose proof (Hkin (bodyA s)) as HA. pose proof (Hkin (bodyB s)) as HB.
    rewrite Ha in HA. rewrite Hb in HB.
    destruct (bodies w2 !! bodyA s) as [a2|] eqn:Ha2; [|contradiction].
    destruct (bodies w2 !! bodyB s) as [b2|] eqn:Hb2; [|contradiction].
    rewrite <- Hsp in Hs.
    rewrite (applyForce_unfold pointToWorldFrame this w2 s a2 b2 Hs Ha2 Hb2).
    now rewrite (applied_same_kinematics s a b a2 b2 HA HB).
Qed.

End SpringFrame.

(* ===================================================================== *)
(** ** Spring: construction *)
(* ===================================================================== *)

Section SpringNew.

Import Spring.
Local Open Scope R_scope.

Variable pointToLocalFrame : Vec3.t -> Quaternion.t -> Vec3.t -> Vec3.t.

Lemma truthy_nonzero (v : R) : v <> 0 -> Num.truthy (Finite v) = true.
Proof.
  intros Hv. unfold Num.truthy.
  destruct (Req_dec_T v 0) as [E|_]; [contradiction|reflexivity].
Qed.

Lemma truthy_zero : Num.truthy (Finite 0) = false.
Proof.
  unfold Num.truthy.
  destruct (Req_dec_T 0 0) as [_|N]; [reflexivity|now contradiction N].
Qed.

(** The fields [init] gives a spring.  A world anchor is asked of the
    body; the constructor succeeds when that body is in the world. *)
Lemma init_fields (A B : nat) (options : option Options) (bs : gmap nat Body.t) :
  let o := default no_options options in
  (opt_worldAnchorA o <> None -> is_Some (bs !! A)) ->
  (opt_worldAnchorB o <> None -> is_Some (bs !! B)) ->
  exists s : Spring.t,
    init pointToLocalFrame A B options bs = Some s /\
    restLength s = number_or (opt_restLength o) (Finite 1) /\
    stiffness s = or_default (opt_stiffness o) (Finite 100) /\
    damping s = or_default (opt_damping o) (Finite 1) /\
    bodyA s = A /\ bodyB s = B /\
    (opt_worldAnchorA o = None ->
       localAnchorA s = default Vec3.ZERO (opt_localAnchorA o)) /\
    (opt_worldAnchorB o = None ->
       localAnchorB s = default Vec3.ZERO (opt_localAnchorB o)).
Proof.
  intros o HA HB. unfold init. fold o.
  destruct o as [rl st dm la lb wa wb]. cbn [opt_restLength opt_stiffness
    opt_damping opt_localAnchorA opt_localAnchorB opt_worldAnchorA
    opt_worldAnchorB] in *.
  destruct wa as [wa|], wb as [wb|];
    try (destruct HA as [a Ha]; [discriminate|]);
    try (destruct HB as [b Hb]; [discriminate|]);
    unfold setWorldAnchorA, setWorldAnchorB;
    destruct la as [la|], lb as [lb|];
    cbn [mbind option_bind bodyA bodyB set_localAnchorA set_localAnchorB];
    rewrite ?Ha; cbn [mbind option_bind bodyA bodyB set_localAnchorA set_localAnchorB];
    rewrite ?Hb; cbn [mbind option_bind];
    eexists; (split; [reflexivity|]);
    cbn; split_and!; try reflexivity; intros; discriminate.
Qed.

Lemma new_fields (A B : nat) (options : option Options) (w : World) (s : Spring.t) :
  init pointToLocalFrame A B options (bodies w) = Some s ->
  new pointToLocalFrame A B options w
  = Some (fresh (dom (springs w)),
          mkWorld (bodies w) (<[fresh (dom (springs w)) := s]> (springs w))).
Proof. intros H. unfold new. rewrite H. reflexivity. Qed.

(** C10.  The constructor returns a new spring.  A stiffness [0] is
    replaced by [100] and a damping [0] by [1], as an absent one is; a rest
    length [0] is kept.  The defaults for what the options omit are: rest
    length [1], stiffness [100], damping [1], and the zero vector for an
    anchor that is given neither in local nor in world coordinates. *)
Theorem new_defaults_and_zero (A B : nat) (options : option Options) (w : World) :
  let o := default no_options options in
  (opt_worldAnchorA o <> None -> is_Some (bodies w !! A)) ->
  (opt_worldAnchorB o <> None -> is_Some (bodies w !! B)) ->
  exists (r : nat) (s : Spring.t) (w' : World),
    new pointToLocalFrame A B options w = Some (r, w') /\
    springs w !! r = None /\
    springs w' !! r = Some s /\
    (opt_stiffness o = Some (Finite 0) -> stiffness s = Finite 100) /\
    (opt_damping o = Some (Finite 0) -> damping s = Finite 1) /\
    (opt_restLength o = Some (Finite 0) -> restLength s = Finite 0) /\
    (opt_restLength o = None -> restLength s = Finite 1) /\
    (opt_stiffness o = None -> stiffness s = Finite 100) /\
    (opt_damping o = None -> damping s = Finite 1) /\
    (opt_localAnchorA o = None -> opt_worldAnchorA o = None ->
       localAnchorA s = Vec3.ZERO) /\
    (opt_localAnchorB o = None -> opt_worldAnchorB o = None ->
       localAnchorB s = Vec3.ZERO).
Proof.
  intros o HA HB.
  destruct (init_fields A B options (bodies w) HA HB)
    as (s & Hi & Hrl & Hst & Hdm & _ & _ & Hla & Hlb).
  fold o in Hrl, Hst, Hdm, Hla, Hlb.
  exists (fresh (dom (springs w))), s. eexists.
  split; [exact (new_fields A B options w s Hi)|].
  split; [apply not_elem_of_dom, is_fresh|].
  cbn [springs]. rewrite lookup_insert_eq.
  split; [reflexivity|].
  split_and!.
  - intros E. rewrite Hst, E. unfold or_default. now rewrite truthy_zero.
  - intros E. rewrite Hdm, E. unfold or_default. now rewrite truthy_zero.
  - intros E. now rewrite Hrl, E.
  - intros E. now rewrite Hrl, E.
  - intros E. now rewrite Hst, E.
  - intros E. now rewrite Hdm, E.
  - intros E1 E2. now rewrite (Hla E2), E1.
  - intros E1 E2. now rewrite (Hlb E2), E1.
Qed.

End SpringNew.

(* ===================================================================== *)
(** ** Spring: the scene *)
(* ===================================================================== *)

Section SpringScene.

Import Spring.
Local Open Scope R_scope.


Lemma applyForce_frame_witness :
  exists (s : Spring.t) (a b : Body.t) (f ta tb : Vec3.t),
    springs Scene.spring_world !! 0%nat = Some s /\
    bodies Scene.spring_world !! bodyA s = Some a /\
    bodies Scene.spring_world !! bodyB s = Some b /\
    (forall w2 : World,
       springs w2 = springs Scene.spring_world ->
       Spec.same_kinematics_all (bodies Scene.spring_world) (bodies w2) ->
       applyForce Scene.pointToWorldFrame 0 w2 =
         Some (mkWorld (Spec.accumulate f ta tb (bodyA s) (bodyB s) (bodies w2))
                       (springs w2))).
Proof.
  destruct (applyForce_frame Scene.pointToWorldFrame 0 Scene.spring_world _
              (applyForce_unfold Scene.pointToWorldFrame 0 Scene.spring_world
                 Scene.spring (Scene.body_at (Scene.vec 0 0 0))
                 (Scene.body_at (Scene.vec 3 4 0)) eq_refl eq_refl eq_refl))
    as (s & a & b & f & ta & tb & Hs & Ha & Hb & _ & _ & _ & Hadd).
  exists s, a, b, f, ta, tb. auto.
Defined.

Lemma new_defaults_and_zero_witness :
  exists (r : nat) (s : Spring.t) (w' : World),
    new Scene.pointToLocalFrame 0 1 (Some Scene.zero_options) Scene.spring_world
      = Some (r, w') /\
    springs w' !! r = Some s /\
    stiffness s = Finite 100 /\
    damping s = Finite 1 /\
    restLength s = Finite 0 /\
    localAnchorA s = Vec3.ZERO /\
    localAnchorB s = Vec3.ZERO.
Proof.
  destruct (new_defaults_and_zero Scene.pointToLocalFrame 0 1
              (Some Scene.zero_options) Scene.spring_world)
    as (r & s & w' & Hn & _ & Hs & Hst & Hdm & Hrl & _ & _ & _ & Hla & Hlb).
  - simpl. intros H. now contradiction H.
  - simpl. intros H. now contradiction H.
  - exists r, s, w'. split_and!; auto.
Defined.

End SpringScene.

(* ===================================================================== *)
(** ** The constructors validate nothing *)
(* ===================================================================== *)

Section Validation.

Local Open Scope R_scope.

Variable pointToLocalFrame : Vec3.t -> Quaternion.t -> Vec3.t -> Vec3.t.

(** C5, as the code has it.  Neither constructor validates a value.  A
    [Spring] between two bodies of the world is always built: it stores the
    rest length it is given, and a negative stiffness or damping as given.
    A [ContactMaterial] is always built, with the friction and restitution
    it is given. *)
Theorem constructors_validate_nothing (A B : nat) (o : Spring.Options)
    (w : Spring.World) (m1 m2 : nat) (mo : ContactMaterial.Options)
    (idCounter : number) :
  is_Some (Spring.bodies w !! A) ->
  is_Some (Spring.bodies w !! B) ->
  (exists (r : nat) (s : Spring.t) (w' : Spring.World),
     Spring.new pointToLocalFrame A B (Some o) w = Some (r, w') /\
     Spring.springs w' !! r = Some s /\
     (forall v : number, Spring.opt_restLength o = Some v -> Spring.restLength s = v) /\
     (forall v : R, Spring.opt_stiffness o = Some (Finite v) -> v < 0 ->
                    Spring.stiffness s = Finite v) /\
     (forall v : R, Spring.opt_damping o = Some (Finite v) -> v < 0 ->
                    Spring.damping s = Finite v)) /\
  (let c := fst (ContactMaterial.new m1 m2 mo idCounter) in
   (forall v : number, ContactMaterial.opt_friction mo = Some v ->
                       ContactMaterial.friction c = v) /\
   (forall v : number, ContactMaterial.opt_restitution mo = Some v ->
                       ContactMaterial.restitution c = v)).
Proof.
  intros HA HB. split.
  - destruct (init_fields pointToLocalFrame A B (Some o) (Spring.bodies w))
      as (s & Hi & Hrl & Hst & Hdm & _); [intros _; exact HA | intros _; exact HB |].
    cbv [from_option Datatypes.id] in Hrl, Hst, Hdm.
    exists (fresh (dom (Spring.springs w))), s. eexists.
    split; [exact (new_fields pointToLocalFrame A B (Some o) w s Hi)|].
    cbn [Spring.springs]. rewrite lookup_insert_eq.
    split; [reflexivity|]. split_and!.
    + intros v E. now rewrite Hrl, E.
    + intros v E Hv. rewrite Hst, E. unfold or_default.
      rewrite truthy_nonzero; [reflexivity | lra].
    + intros v E Hv. rewrite Hdm, E. unfold or_default.
      rewrite truthy_nonzero; [reflexivity | lra].
  - cbv zeta. unfold ContactMaterial.new, ContactMaterial.bind, ContactMaterial.ret,
      ContactMaterial.post_increment.
    cbn [fst ContactMaterial.friction ContactMaterial.restitution
         ContactMaterial.Utils_defaults ContactMaterial.opt_friction
         ContactMaterial.opt_restitution].
    split; intros v E; rewrite E; reflexivity.
Qed.

End Validation.

Section ValidationScene.

Local Open Scope R_scope.

Lemma constructors_validate_nothing_witness :
  (exists (r : nat) (s : Spring.t) (w' : Spring.World),
     Spring.new Scene.pointToLocalFrame 0 1 (Some Scene.negative_spring_options)
       Scene.spring_world = Some (r, w') /\
     Spring.springs w' !! r = Some s /\
     Spring.restLength s = Finite (-1) /\
     Spring.stiffness s = Finite (-5) /\
     Spring.damping s = Finite (-2)) /\
  ContactMaterial.friction
    (fst (ContactMaterial.new 0 1 Scene.negative_material_options
            ContactMaterial.initial_idCounter)) = Finite (-1) /\
  ContactMaterial.restitution
    (fst (ContactMaterial.new 0 1 Scene.negative_material_options
            ContactMaterial.initial_idCounter)) = Finite (-1).
Proof.
  destruct (constructors_validate_nothing Scene.pointToLocalFrame 0 1
              Scene.negative_spring_options Scene.spring_world 0 1
              Scene.negative_material_options ContactMaterial.initial_idCounter)
    as ((r & s & w' & Hn & Hs & Hrl & Hst & Hdm) & Hf & Hr).
  - eexists; reflexivity.
  - eexists; reflexivity.
  - split.
    + exists r, s, w'. split_and!; auto.
      * apply Hst; [reflexivity | lra].
      * apply Hdm; [reflexivity | lra].
    + split; [now apply Hf | now apply Hr].
Defined.

(** C5, as the specification has it, fails: with a negative rest length,
    stiffness and damping the [Spring] constructor returns a spring that
    holds them, and with a negative friction and restitution the
    [ContactMaterial] constructor returns a material that holds them. *)
Lemma negative_values_are_stored :
  (exists (r : nat) (w' : Spring.World),
     Spring.new Scene.pointToLocalFrame 0 1 (Some Scene.negative_spring_options)
       Scene.spring_world = Some (r, w') /\
     Spring.springs w' !! r
       = Some (Spring.mk (Finite (-1)) (Finite (-5)) (Finite (-2)) 0 1
                 Vec3.ZERO Vec3.ZERO)) /\
  fst (ContactMaterial.new 0 1 Scene.negative_material_options
         ContactMaterial.initial_idCounter)
    = ContactMaterial.mk (Finite 0) (0%nat, 1%nat) (Finite (-1)) (Finite (-1))
        (Finite 1e7) (Finite 3) (Finite 1e7) (Finite 3).
Proof.
  split; [|reflexivity].
  assert (Spring.init Scene.pointToLocalFrame 0 1 (Some Scene.negative_spring_options)
            (Spring.bodies Scene.spring_world)
          = Some (Spring.mk (Finite (-1)) (Finite (-5)) (Finite (-2)) 0 1
                    Vec3.ZERO Vec3.ZERO)) as Hi.
  { cbv [Spring.init Scene.negative_spring_options or_default number_or
         from_option Datatypes.id Spring.opt_restLength Spring.opt_stiffness
         Spring.opt_damping Spring.opt_localAnchorA Spring.opt_localAnchorB
         Spring.opt_worldAnchorA Spring.opt_worldAnchorB mbind option_bind].
    rewrite !truthy_nonzero by lra. reflexivity. }
  eexists _, _.
  split; [exact (new_fields _ _ _ _ _ _ Hi)|].
  cbn [Spring.springs]. now rewrite lookup_insert_eq.
Qed.

End ValidationScene.

(* ===================================================================== *)
(** ** DistanceConstraint: further properties of [update()] *)
(* ===================================================================== *)

Section DistanceConstraintMore.

Import DistanceConstraint.
Local Open Scope R_scope.

Lemma update_inv (this : DistanceConstraint.t) (w w1 : World) :
  update this w = Some w1 ->
  exists (a b : Body.t) (eq : ContactEquation.t),
    bodies w !! bodyA this = Some a /\
    bodies w !! bodyB this = Some b /\
    equationStore w !! distanceEquation this = Some eq.
Proof.
  unfold update. intros H.
  destruct (bodies w !! bodyA this) as [a|]; [|discriminate].
  destruct (bodies w !! bodyB this) as [b|]; [|discriminate].
  destruct (equationStore w !! distanceEquation this) as [eq|]; [|discriminate].
  now exists a, b, eq.
Qed.

(** X1.  [update()] is idempotent: called again with no body moved in
    between, it leaves the world as the first call left it. *)
Theorem update_idempotent (this : DistanceConstraint.t) (w w1 : World) :
  update this w = Some w1 ->
  update this w1 = Some w1.
Proof.
  intros H.
  destruct (update_inv _ _ _ H) as (a & b & eq & Ha & Hb & He).
  rewrite (update_unfold this w a b eq Ha Hb He) in H. cbv zeta in H.
  injection H as <-.
  erewrite update_unfold; cbn [bodies equationStore];
    [ | exact Ha | exact Hb | apply lookup_insert_eq ].
  cbv zeta. cbn [ContactEquation.bodyA ContactEquation.bodyB
                 ContactEquation.minForce ContactEquation.maxForce].
  now rewrite insert_insert_eq.
Qed.

Lemma update_idempotent_witness :
  exists w1 : World,
    update Scene.constraint Scene.world = Some w1 /\
    update Scene.constraint w1 = Some w1.
Proof.
  eexists. split.
  - exact (update_unfold Scene.constraint Scene.world _ _ _ eq_refl eq_refl eq_refl).
  - apply (update_idempotent Scene.constraint Scene.world).
    exact (update_unfold Scene.constraint Scene.world _ _ _ eq_refl eq_refl eq_refl).
Defined.

(** X2.  [update()] writes [ni], [ri] and [rj] of its own equation and
    nothing else: the bodies and every other equation are left as they
    were, and the equation keeps its bodies and its force bounds.  The two
    offsets it writes are always opposite. *)
Theorem update_frame (this : DistanceConstraint.t) (w w1 : World) :
  update this w = Some w1 ->
  bodies w1 = bodies w /\
  (forall r : nat, r <> distanceEquation this ->
                   equationStore w1 !! r = equationStore w !! r) /\
  exists eq eq' : ContactEquation.t,
    equationStore w !! distanceEquation this = Some eq /\
    equationStore w1 !! distanceEquation this = Some eq' /\
    ContactEquation.bodyA eq' = ContactEquation.bodyA eq /\
    ContactEquation.bodyB eq' = ContactEquation.bodyB eq /\
    ContactEquation.minForce eq' = ContactEquation.minForce eq /\
    ContactEquation.maxForce eq' = ContactEquation.maxForce eq /\
    ContactEquation.rj eq' = Spec.negate (ContactEquation.ri eq').
Proof.
  intros H.
  destruct (update_inv _ _ _ H) as (a & b & eq & Ha & Hb & He).
  rewrite (update_unfold this w a b eq Ha Hb He) in H. cbv zeta in H.
  injection H as <-. cbn [bodies equationStore].
  split; [reflexivity|]. split.
  - intros r Hr. now rewrite lookup_insert_ne.
  - exists eq. eexists. split; [exact He|].
    rewrite lookup_insert_eq. split; [reflexivity|].
    cbn [ContactEquation.bodyA ContactEquation.bodyB ContactEquation.minForce
         ContactEquation.maxForce ContactEquation.ri ContactEquation.rj].
    split_and!; try reflexivity. apply negate_mult.
Qed.

Lemma update_frame_witness :
  exists w1 : World,
    update Scene.constraint Scene.world = Some w1 /\
    bodies w1 = bodies Scene.world /\
    equationStore w1 !! 1%nat = equationStore Scene.world !! 1%nat.
Proof.
  eexists. split.
  - exact (update_unfold Scene.constraint Scene.world _ _ _ eq_refl eq_refl eq_refl).
  - destruct (update_frame Scene.constraint Scene.world _
                (update_unfold Scene.constraint Scene.world _ _ _
                   eq_refl eq_refl eq_refl)) as (Hb & Hother & _).
    split; [exact Hb|]. apply Hother. discriminate.
Defined.

End DistanceConstraintMore.

(* ===================================================================== *)
(** ** DistanceConstraint: what a successful construction read *)
(* ===================================================================== *)

Section DistanceConstraintCompose.

Import DistanceConstraint.
Local Open Scope R_scope.

Lemma new_inv (A B : nat) (distance maxForce : option number) (w w' : World)
    (c : DistanceConstraint.t) :
  new A B distance maxForce w = Some (c, w') ->
  exists d : number,
    match distance with
    | None =>
        a ← bodies w !! A;
        b ← bodies w !! B;
        Some (Vec3.distanceTo (Body.position a) (Body.position b))
    | Some d' => Some d'
    end = Some d.
Proof.
  unfold new. cbn -[fresh]. intros H.
  destruct (match distance with
            | None => _
            | Some d' => Some d'
            end) as [d|]; [now exists d | discriminate].
Qed.

End DistanceConstraintCompose.

(* ===================================================================== *)
(** ** DistanceConstraint: the equations the constructor makes *)
(* ===================================================================== *)

Section DistanceConstraintEquations.

Import DistanceConstraint.
Local Open Scope R_scope.

Lemma new_result (A B : nat) (distance maxForce : option number) (w w' : World)
    (c : DistanceConstraint.t) :
  new A B distance maxForce w = Some (c, w') ->
  distanceEquation c = fresh (dom (equationStore w)) /\
  bodies w' = bodies w /\
  exists e : ContactEquation.t,
    equationStore w' = <[distanceEquation c := e]> (equationStore w).
Proof.
  intros H. destruct (new_inv _ _ _ _ _ _ _ H) as (d & Hd).
  rewrite (new_unfold A B distance maxForce w d Hd) in H. cbv zeta in H.
  injection H as <- <-. cbn [distanceEquation bodies equationStore].
  split; [reflexivity|]. split; [reflexivity|]. eexists. reflexivity.
Qed.

(** X5.  The constructor takes [maxForce] as it comes: the bounds of the
    equation are [-maxForce] and [maxForce], so a negative [maxForce] gives
    an equation whose upper bound is below its lower bound, and only a
    negative one does. *)
Theorem new_bounds_inverted_iff_negative (A B : nat) (distance : option number)
    (m : R) (w : World) :
  (distance = None -> is_Some (bodies w !! A) /\ is_Some (bodies w !! B)) ->
  exists (c : DistanceConstraint.t) (w' : World) (e : ContactEquation.t),
    new A B distance (Some (Finite m)) w = Some (c, w') /\
    equationStore w' !! distanceEquation c = Some e /\
    ContactEquation.minForce e = Finite (- m) /\
    ContactEquation.maxForce e = Finite m /\
    (Num.lt (ContactEquation.maxForce e) (ContactEquation.minForce e) <-> m < 0).
Proof.
  intros Hd.
  assert (exists d,
            match distance with
            | None =>
                a ← bodies w !! A;
                b ← bodies w !! B;
                Some (Vec3.distanceTo (Body.position a) (Body.position b))
            | Some d' => Some d'
            end = Some d) as (d & Ed).
  { destruct distance as [d|]; [now exists d|].
    destruct (Hd eq_refl) as ((a & Ha) & (b & Hb)).
    rewrite Ha, Hb. eexists. reflexivity. }
  pose proof (new_unfold A B distance (Some (Finite m)) w d Ed) as Hn.
  cbv zeta in Hn. eexists _, _, _. split; [exact Hn|].
  cbn [distanceEquation equationStore]. rewrite lookup_insert_eq.
  split; [reflexivity|].
  cbn [ContactEquation.minForce ContactEquation.maxForce from_option Num.neg Num.lt].
  unfold Datatypes.id. split_and!; try reflexivity.
  unfold Num.lt, Num.neg. split; intros Hm; lra.
Qed.

Lemma new_bounds_inverted_iff_negative_witness :
  exists (c : DistanceConstraint.t) (w' : World) (e : ContactEquation.t),
    new 0 1 None (Some (Finite (-3))) Scene.world = Some (c, w') /\
    equationStore w' !! distanceEquation c = Some e /\
    ContactEquation.minForce e = Finite (- -3) /\
    ContactEquation.maxForce e = Finite (-3) /\
    (Num.lt (ContactEquation.maxForce e) (ContactEquation.minForce e) <-> -3 < 0).
Proof.
  apply (new_bounds_inverted_iff_negative 0 1 None (-3) Scene.world).
  intros _. split; eexists; reflexivity.
Defined.

(** X6.  Two constraints never share an equation: the equation of a
    constraint built later is another object, and building it leaves the
    equation of the earlier constraint as it was. *)
Theorem new_twice_distinct_equations (A B A' B' : nat)
    (distance maxForce distance' maxForce' : option number) (w w1 w2 : World)
    (c1 c2 : DistanceConstraint.t) :
  new A B distance maxForce w = Some (c1, w1) ->
  new A' B' distance' maxForce' w1 = Some (c2, w2) ->
  distanceEquation c1 <> distanceEquation c2 /\
  is_Some (equationStore w1 !! distanceEquation c1) /\
  equationStore w2 !! distanceEquation c1 = equationStore w1 !! distanceEquation c1.
Proof.
  intros H1 H2.
  destruct (new_result _ _ _ _ _ _ _ H1) as (_ & _ & e1 & Es1).
  destruct (new_result _ _ _ _ _ _ _ H2) as (Ef2 & _ & e2 & Es2).
  assert (is_Some (equationStore w1 !! distanceEquation c1)) as Hin.
  { rewrite Es1, lookup_insert_eq. now eexists. }
  assert (distanceEquation c1 <> distanceEquation c2) as Hne.
  { intros E. rewrite E, Ef2 in Hin.
    apply elem_of_dom in Hin. exact (is_fresh _ Hin). }
  split; [exact Hne|]. split; [exact Hin|].
  rewrite Es2. now rewrite lookup_insert_ne.
Qed.

Lemma new_twice_distinct_equations_witness :
  exists (c1 c2 : DistanceConstraint.t) (w1 w2 : World),
    new 0 1 None None Scene.world = Some (c1, w1) /\
    new 0 2 (Some (Finite 1)) None w1 = Some (c2, w2) /\
    distanceEquation c1 <> distanceEquation c2 /\
    equationStore w2 !! distanceEquation c1 = equationStore w1 !! distanceEquation c1.
Proof.
  eexists _, _, _, _.
  assert (new 0 1 None None Scene.world = Some _) as H1
    by (apply new_unfold; reflexivity).
  split; [exact H1|].
  assert (forall w1, new 0 2 (Some (Finite 1)) None w1 = Some _) as H2
    by (intros w1; apply new_unfold; reflexivity).
  split; [apply H2|].
  destruct (new_twice_distinct_equations _ _ _ _ _ _ _ _ _ _ _ _ _ H1 (H2 _))
    as (Hne & _ & Hsame).
  split; [exact Hne | exact Hsame].
Defined.

End DistanceConstraintEquations.

(* ===================================================================== *)
(** ** Spring: how calls of [applyForce()] compose *)
(* ===================================================================== *)

Section SpringCompose.

Import Spring.
Local Open Scope R_scope.

Variable pointToWorldFrame : Vec3.t -> Quaternion.t -> Vec3.t -> Vec3.t.

(** After any accumulation a spring still finds its bodies, and computes
    the same vectors for them. *)
Lemma applyForce_after_accumulate (this : nat) (w : World) (s : Spring.t)
    (a b : Body.t) (f ta tb : Vec3.t) (X Y : nat) :
  springs w !! this = Some s ->
  bodies w !! bodyA s = Some a ->
  bodies w !! bodyB s = Some b ->
  applyForce pointToWorldFrame this
    (mkWorld (Spec.accumulate f ta tb X Y (bodies w)) (springs w))
  = Some (mkWorld
            (Spec.accumulate (applied pointToWorldFrame s a b).1.1
               (applied pointToWorldFrame s a b).1.2
               (applied pointToWorldFrame s a b).2 (bodyA s) (bodyB s)
               (Spec.accumulate f ta tb X Y (bodies w)))
            (springs w)).
Proof.
  intros Hs Ha Hb.
  destruct (accumulate_Some f ta tb X Y _ _ _ Ha) as (a' & Ha' & Ka & _).
  destruct (accumulate_Some f ta tb X Y _ _ _ Hb) as (b' & Hb' & Kb & _).
  rewrite (applyForce_unfold pointToWorldFrame this _ s a' b'); [| exact Hs | exact Ha' | exact Hb'].
  cbn [bodies springs].
  now rewrite (applied_same_kinematics pointToWorldFrame s a b a' b' Ka Kb).
Qed.

(** X8.  A second call of [applyForce()] with no body moved in between
    adds the same vectors once more; the accumulators grow call after call
    until something else clears them. *)
Theorem applyForce_twice (this : nat) (w w1 : World) :
  applyForce pointToWorldFrame this w = Some w1 ->
  exists (s : Spring.t) (f ta tb : Vec3.t) (w2 : World),
    springs w !! this = Some s /\
    bodies w1 = Spec.accumulate f ta tb (bodyA s) (bodyB s) (bodies w) /\
    applyForce pointToWorldFrame this w1 = Some w2 /\
    bodies w2 = Spec.accumulate f ta tb (bodyA s) (bodyB s) (bodies w1) /\
    springs w2 = springs w.
Proof.
  intros H1.
  destruct (applyForce_inv _ _ _ _ H1) as (s & a & b & Hs & Ha & Hb).
  rewrite (applyForce_unfold _ _ _ _ _ _ Hs Ha Hb) in H1. injection H1 as <-.
  exists s. eexists _, _, _, _. split; [exact Hs|].
  cbn [bodies springs]. split; [reflexivity|].
  split; [exact (applyForce_after_accumulate this w s a b _ _ _ _ _ Hs Ha Hb)|].
  split; reflexivity.
Qed.

End SpringCompose.

Section SpringComposeScene.

Import Spring.

Lemma applyForce_twice_witness :
  exists (w1 w2 : World) (f ta tb : Vec3.t),
    applyForce Scene.pointToWorldFrame 0 Scene.spring_world = Some w1 /\
    bodies w1 = Spec.accumulate f ta tb 0 1 (bodies Scene.spring_world) /\
    applyForce Scene.pointToWorldFrame 0 w1 = Some w2 /\
    bodies w2 = Spec.accumulate f ta tb 0 1 (bodies w1).
Proof.
  pose proof (applyForce_unfold Scene.pointToWorldFrame 0 Scene.spring_world
                Scene.spring _ _ eq_refl eq_refl eq_refl) as H1.
  destruct (applyForce_twice Scene.pointToWorldFrame 0 _ _ H1)
    as (s & f & ta & tb & w2 & Hs & Hb1 & H2 & Hb2 & _).
  assert (s = Scene.spring) as -> by (injection Hs as <-; reflexivity).
  eexists _, w2, f, ta, tb. split; [exact H1|]. split; [exact Hb1|].
  split; assumption.
Defined.

End SpringComposeScene.

(* ===================================================================== *)
(** ** Spring: the force on finite states *)
(* ===================================================================== *)

Section SpringFinite.

Import Spring.
Local Open Scope R_scope.

Variable pointToWorldFrame : Vec3.t -> Quaternion.t -> Vec3.t -> Vec3.t.










End SpringFinite.

(* ===================================================================== *)
(** ** Spring: the two bodies as a pair *)
(* ===================================================================== *)

Section SpringPair.

Import Spring.
Local Open Scope R_scope.

Variable pointToWorldFrame : Vec3.t -> Quaternion.t -> Vec3.t -> Vec3.t.


End SpringPair.

(* ===================================================================== *)
(** ** Spring: rest, stretch and the anchors *)
(* ===================================================================== *)

Section SpringCases.

Import Spring.
Local Open Scope R_scope.

Variable pointToWorldFrame : Vec3.t -> Quaternion.t -> Vec3.t -> Vec3.t.














End SpringCases.

(* ===================================================================== *)
(** ** Spring: what the constructor stores *)
(* ===================================================================== *)

Section SpringAnchors.

Import Spring.
Local Open Scope R_scope.

Variable pointToLocalFrame : Vec3.t -> Quaternion.t -> Vec3.t -> Vec3.t.
Variable pointToWorldFrame : Vec3.t -> Quaternion.t -> Vec3.t -> Vec3.t.

Lemma or_default_truthy (x : option number) (d : R) :
  d <> 0 -> Num.truthy (or_default x (Finite d)) = true.
Proof.
  intros Hd. unfold or_default.
  destruct x as [v|]; [|now apply truthy_nonzero].
  destruct (Num.truthy v) eqn:E; [exact E | now apply truthy_nonzero].
Qed.

Lemma init_inv (A B : nat) (options : option Options) (bs : gmap nat Body.t)
    (s : Spring.t) :
  init pointToLocalFrame A B options bs = Some s ->
  let o := default no_options options in
  restLength s = number_or (opt_restLength o) (Finite 1) /\
  stiffness s = or_default (opt_stiffness o) (Finite 100) /\
  damping s = or_default (opt_damping o) (Finite 1) /\
  bodyA s = A /\ bodyB s = B.
Proof.
  intros H. cbv zeta. set (o := default no_options options) in *.
  unfold init in H. fold o in H.
  destruct (opt_localAnchorA o), (opt_localAnchorB o),
           (opt_worldAnchorA o), (opt_worldAnchorB o);
    unfold setWorldAnchorA, setWorldAnchorB in H;
    cbn [mbind option_bind bodyA bodyB set_localAnchorA set_localAnchorB] in H;
    repeat match type of H with
           | context [bs !! ?i] => destruct (bs !! i); [|discriminate]
           end;
    cbn [mbind option_bind bodyA bodyB set_localAnchorA set_localAnchorB] in H;
    repeat match type of H with
           | context [bs !! ?i] => destruct (bs !! i); [|discriminate]
           end;
    cbn in H; injection H as <-; cbn; auto.
Qed.

Lemma new_inv_spring (A B : nat) (options : option Options) (w w' : World)
    (r : nat) :
  new pointToLocalFrame A B options w = Some (r, w') ->
  exists s : Spring.t,
    init pointToLocalFrame A B options (bodies w) = Some s /\
    r = fresh (dom (springs w)) /\
    w' = mkWorld (bodies w) (<[r := s]> (springs w)).
Proof.
  unfold new. intros H.
  destruct (init pointToLocalFrame A B options (bodies w)) as [s|]; [|discriminate].
  cbn [mbind option_bind] in H. injection H as <- <-. now exists s.
Qed.

(** X15.  No spring leaves the constructor with a stiffness or a damping
    that is [0] or [NaN]: whatever the options, the stored values are
    truthy, since [||] puts the default in place of the others. *)
Theorem new_stiffness_damping_truthy (A B : nat) (options : option Options)
    (w w' : World) (r : nat) :
  new pointToLocalFrame A B options w = Some (r, w') ->
  exists s : Spring.t,
    springs w' !! r = Some s /\
    Num.truthy (stiffness s) = true /\
    Num.truthy (damping s) = true /\
    stiffness s <> Finite 0 /\ stiffness s <> NaN /\
    damping s <> Finite 0 /\ damping s <> NaN.
Proof.
  intros H. destruct (new_inv_spring _ _ _ _ _ _ H) as (s & Hi & _ & ->).
  destruct (init_inv _ _ _ _ _ Hi) as (_ & Hst & Hdm & _).
  assert (Num.truthy (stiffness s) = true) as Tst
    by (rewrite Hst; apply or_default_truthy; lra).
  assert (Num.truthy (damping s) = true) as Tdm
    by (rewrite Hdm; apply or_default_truthy; lra).
  exists s. cbn [springs]. rewrite lookup_insert_eq.
  split_and!; try reflexivity; try assumption.
  - intros E. rewrite E, truthy_zero in Tst. discriminate.
  - intros E. rewrite E in Tst. discriminate.
  - intros E. rewrite E, truthy_zero in Tdm. discriminate.
  - intros E. rewrite E in Tdm. discriminate.
Qed.

(** X16.  [setWorldAnchorA] followed by [getWorldAnchorA] gives the point
    back, and likewise for B, as long as the transform of the body from its
    frame to the world undoes, at that point, its transform from the world
    to its frame.  The other fields of the spring are not touched. *)
Theorem setWorldAnchor_getWorldAnchor (bs : gmap nat Body.t) (this : Spring.t)
    (a b : Body.t) (pA pB : Vec3.t) :
  bs !! bodyA this = Some a ->
  bs !! bodyB this = Some b ->
  toWorld pointToWorldFrame a (toLocal pointToLocalFrame a pA) = pA ->
  toWorld pointToWorldFrame b (toLocal pointToLocalFrame b pB) = pB ->
  exists s1 s2 : Spring.t,
    setWorldAnchorA pointToLocalFrame pA bs this = Some s1 /\
    setWorldAnchorB pointToLocalFrame pB bs s1 = Some s2 /\
    getWorldAnchorA pointToWorldFrame bs s2 = Some pA /\
    getWorldAnchorB pointToWorldFrame bs s2 = Some pB /\
    restLength s2 = restLength this /\
    stiffness s2 = stiffness this /\
    damping s2 = damping this /\
    bodyA s2 = bodyA this /\
    bodyB s2 = bodyB this.
Proof.
  intros Ha Hb HA HB.
  unfold setWorldAnchorA, setWorldAnchorB, getWorldAnchorA, getWorldAnchorB.
  rewrite Ha. cbn [mbind option_bind]. eexists _, _.
  split; [reflexivity|].
  cbn [bodyA bodyB set_localAnchorA set_localAnchorB]. rewrite Hb.
  cbn [mbind option_bind]. split; [reflexivity|].
  cbn [bodyA bodyB localAnchorA localAnchorB set_localAnchorA set_localAnchorB
       restLength stiffness damping].
  rewrite Ha, Hb. cbn [mbind option_bind]. rewrite HA, HB.
  split_and!; reflexivity.
Qed.

(** X17.  A world anchor given to the constructor wins over a local anchor
    given for the same body: the spring stores the world point brought into
    the frame of the body, whatever [options.localAnchorA] is, and
    [getWorldAnchorA] gives the world point back (under the same condition
    on the transforms), also from a world where the body has only
    accumulated forces since. *)
Theorem new_world_anchor_wins (A B : nat) (o : Options) (w : World)
    (a : Body.t) (p : Vec3.t) :
  bodies w !! A = Some a ->
  opt_worldAnchorA o = Some p ->
  opt_worldAnchorB o = None ->
  toWorld pointToWorldFrame a (toLocal pointToLocalFrame a p) = p ->
  exists (r : nat) (s : Spring.t) (w' : World),
    new pointToLocalFrame A B (Some o) w = Some (r, w') /\
    springs w' !! r = Some s /\
    localAnchorA s = toLocal pointToLocalFrame a p /\
    getWorldAnchorA pointToWorldFrame (bodies w') s = Some p /\
    (forall (bs : gmap nat Body.t) (a' : Body.t),
       bs !! A = Some a' -> Spec.same_kinematics a a' ->
       getWorldAnchorA pointToWorldFrame bs s = Some p).
Proof.
  intros Ha HwA HwB Hinv.
  assert (init pointToLocalFrame A B (Some o) (bodies w)
          = Some (mk (number_or (opt_restLength o) (Finite 1))
                     (or_default (opt_stiffness o) (Finite 100))
                     (or_default (opt_damping o) (Finite 1))
                     A B (toLocal pointToLocalFrame a p)
                     (default Vec3.ZERO (opt_localAnchorB o)))) as Hi.
  { unfold init. cbn [from_option]. unfold Datatypes.id.
    rewrite HwA, HwB. unfold setWorldAnchorA.
    destruct (opt_localAnchorA o), (opt_localAnchorB o);
      cbn [mbind option_bind bodyA bodyB set_localAnchorA set_localAnchorB];
      rewrite Ha; reflexivity. }
  eexists _, _, _. split; [exact (new_fields _ _ _ _ _ _ Hi)|].
  cbn [springs bodies]. rewrite lookup_insert_eq.
  split; [reflexivity|]. cbn [localAnchorA]. split; [reflexivity|].
  unfold getWorldAnchorA. cbn [bodyA localAnchorA]. split.
  - rewrite Ha. cbn [mbind option_bind]. now rewrite Hinv.
  - intros bs a' Ha' (Hp & Hq & _). rewrite Ha'. cbn [mbind option_bind].
    f_equal. rewrite <- Hinv at 2. unfold toWorld, toLocal. now rewrite Hp, Hq.
Qed.

End SpringAnchors.

(* ===================================================================== *)
(** ** Spring: the scene again *)
(* ===================================================================== *)

Section SpringSceneCases.

Import Spring.
Local Open Scope R_scope.


Ltac scene_point :=
  unfold toWorld, toLocal, Scene.pointToWorldFrame, Scene.pointToLocalFrame,
    Scene.body_at, Scene.vec, Vec3.vadd, Vec3.vsub, Vec3.ZERO, Num.zero;
  cbn; f_equal; f_equal; lra.




Lemma new_stiffness_damping_truthy_witness :
  exists (r : nat) (w' : World) (s : Spring.t),
    new Scene.pointToLocalFrame 0 1 (Some Scene.zero_options) Scene.spring_world
      = Some (r, w') /\
    springs w' !! r = Some s /\
    Num.truthy (stiffness s) = true /\
    Num.truthy (damping s) = true.
Proof.
  destruct (new Scene.pointToLocalFrame 0 1 (Some Scene.zero_options) Scene.spring_world)
    as [[r w']|] eqn:E.
  - destruct (new_stiffness_damping_truthy Scene.pointToLocalFrame 0 1 _ _ _ _ E)
      as (s & Hs & Tst & Tdm & _).
    exists r, w', s. split_and!; auto.
  - discriminate E.
Defined.

Lemma setWorldAnchor_getWorldAnchor_witness :
  exists s1 s2 : Spring.t,
    setWorldAnchorA Scene.pointToLocalFrame (Scene.vec 1 1 1) Scene.bodies Scene.spring
      = Some s1 /\
    setWorldAnchorB Scene.pointToLocalFrame (Scene.vec 2 2 2) Scene.bodies s1 = Some s2 /\
    getWorldAnchorA Scene.pointToWorldFrame Scene.bodies s2 = Some (Scene.vec 1 1 1) /\
    getWorldAnchorB Scene.pointToWorldFrame Scene.bodies s2 = Some (Scene.vec 2 2 2).
Proof.
  destruct (setWorldAnchor_getWorldAnchor Scene.pointToLocalFrame
              Scene.pointToWorldFrame Scene.bodies Scene.spring
              (Scene.body_at (Scene.vec 0 0 0)) (Scene.body_at (Scene.vec 3 4 0))
              (Scene.vec 1 1 1) (Scene.vec 2 2 2))
    as (s1 & s2 & H1 & H2 & H3 & H4 & _).
  - reflexivity.
  - reflexivity.
  - scene_point.
  - scene_point.
  - exists s1, s2. auto.
Defined.

Lemma new_world_anchor_wins_witness :
  exists (r : nat) (s : Spring.t) (w' : World),
    new Scene.pointToLocalFrame 1 0 (Some Scene.both_anchors) Scene.spring_world
      = Some (r, w') /\
    springs w' !! r = Some s /\
    localAnchorA s
      = toLocal Scene.pointToLocalFrame (Scene.body_at (Scene.vec 3 4 0))
          (Scene.vec 1 1 1) /\
    getWorldAnchorA Scene.pointToWorldFrame (bodies w') s = Some (Scene.vec 1 1 1).
Proof.
  destruct (new_world_anchor_wins Scene.pointToLocalFrame Scene.pointToWorldFrame
              1 0 Scene.both_anchors Scene.spring_world
              (Scene.body_at (Scene.vec 3 4 0)) (Scene.vec 1 1 1))
    as (r & s & w' & H1 & H2 & H3 & H4 & _).
  - reflexivity.
  - reflexivity.
  - reflexivity.
  - scene_point.
  - exists r, s, w'. auto.
Defined.

End SpringSceneCases.
